(** * GoF design-pattern samples: Singleton registry and Observer subject

    A shallow embedding of the two notebooks of the repository:
    - [Creational/Singleton/Sample.ipynb]: the metaclass [SingletonMeta]
      with its class-level dict [_instances] and its class-level [_lock],
      and the class [Singleton] built with it;
    - [Behavioral/Observer/Sample.ipynb]: [ConcreteSubject] with its
      class-level list [_observers], and the two concrete observers.

    Python objects are references: an instance is a position in a heap of
    allocated objects, and identity of instances is equality of positions. *)

From stdpp Require Import gmap strings list fin_maps pretty.
From Stdlib Require Import ZArith Lia.

Set Default Proof Using "Type".

(** ** Exceptions and outcomes of a call *)

Inductive exn :=
| TypeError
| KeyError
| ValueError
| OtherError (name : string).

Inductive result (A : Type) :=
| Return (a : A)
| Raise (e : exn).
Arguments Return {A} a.
Arguments Raise {A} e.

Global Instance exn_eq_dec : EqDecision exn.
Proof. solve_decision. Defined.

Global Instance result_eq_dec {A} `{EqDecision A} : EqDecision (result A).
Proof. solve_decision. Defined.

(** ** Singleton: the metaclass [SingletonMeta] *)

Module SingletonMeta.

Section Meta.

(** A class built with [metaclass=SingletonMeta] is named by a string.
    [Args] stands for the positional and keyword arguments of a call,
    [Obj] for the objects the classes build, and [type_call self args] for
    the call [super().__call__] on those arguments, that is
    [type.__call__]: it runs [__new__] and [__init__] of the class [self]
    and either raises or yields the new object. *)
Context {Args Obj : Type}.
Variable type_call : string → Args → exn + Obj.

(** The store: the allocated objects and the dict
    [SingletonMeta._instances = {}], from a class to (a reference to) its
    instance. *)
Record state := State {
  heap : list Obj;
  _instances : gmap string nat
}.

Definition empty : state := State [] ∅.

(** [return self._instances[self]] *)
Definition return_stored (self : string) (σ : state) : result nat * state :=
  match _instances σ !! self with
  | Some instance => (Return instance, σ)
  | None => (Raise KeyError, σ)
  end.

(** [SingletonMeta.__call__] run by one thread alone: the lock is free on
    entry and is released when the [with] block is left, by [return] or by
    an exception. *)
Definition __call__ (self : string) (args : Args) (σ : state)
  : result nat * state :=
  match _instances σ !! self with
  | None =>
      match type_call self args with
      | inl e => (Raise e, σ)
      | inr o =>
          let instance := length (heap σ) in
          return_stored self
            (State (heap σ ++ [o]) (<[self := instance]> (_instances σ)))
      end
  | Some _ => return_stored self σ
  end.

(** A sequence of calls, one after the other; the outcomes are collected
    in call order. *)
Fixpoint calls (cs : list (string * Args)) (σ : state)
  : list (result nat) * state :=
  match cs with
  | [] => ([], σ)
  | (self, args) :: cs' =>
      let '(r, σ1) := __call__ self args σ in
      let '(rs, σ2) := calls cs' σ1 in
      (r :: rs, σ2)
  end.

(** *** Threads

    The same method, cut at every access to the shared lock and dict, so
    that calls of several threads interleave.  A program point names the
    statement a thread runs next. *)
Inductive pc :=
| PcStart                     (* with self._lock:  (blocks while held) *)
| PcCheck                     (* if self not in self._instances: *)
| PcConstruct                 (* instance = super().__call__(...) *)
| PcStore (instance : nat)    (* self._instances[self] = instance *)
| PcRead                      (* evaluate self._instances[self] *)
| PcExit (r : result nat)     (* leave the with block: release the lock *)
| PcDone (r : result nat).    (* returned, or raised, to the caller *)

Inductive event :=
| EvAcquire
| EvCheck (present : bool)
| EvConstruct (r : exn + nat)
| EvStore (instance : nat)
| EvRead (r : result nat)
| EvRelease.

(** One line of the history: who did what, in a call on which class, and
    who held the lock just before. *)
Record entry := Entry {
  e_thread : nat;
  e_self : string;
  e_holder : option nat;
  e_event : event
}.

Record thread := Thread {
  th_self : string;
  th_args : Args;
  th_pc : pc
}.

(** [_lock] is the class-level [Lock()] of the metaclass, shared by every
    class built with it; [Some t] when thread [t] holds it. *)
Record config := Config {
  store : state;
  _lock : option nat;
  threads : list thread;
  log : list entry
}.

Definition goto (t : nat) (th : thread) (p : pc) (ths : list thread)
  : list thread :=
  <[t := Thread (th_self th) (th_args th) p]> ths.

(** One statement of thread [t]; [None] when [t] cannot move: it is not a
    thread, it waits for the lock, or its call is over. *)
Definition thread_step (t : nat) (c : config) : option config :=
  match threads c !! t with
  | None => None
  | Some th =>
      let self := th_self th in
      let σ := store c in
      let note ev := log c ++ [Entry t self (_lock c) ev] in
      let next p := goto t th p (threads c) in
      match th_pc th with
      | PcStart =>
          match _lock c with
          | Some _ => None
          | None => Some (Config σ (Some t) (next PcCheck) (note EvAcquire))
          end
      | PcCheck =>
          match _instances σ !! self with
          | None =>
              Some (Config σ (_lock c) (next PcConstruct) (note (EvCheck false)))
          | Some _ =>
              Some (Config σ (_lock c) (next PcRead) (note (EvCheck true)))
          end
      | PcConstruct =>
          match type_call self (th_args th) with
          | inl e =>
              Some (Config σ (_lock c) (next (PcExit (Raise e)))
                      (note (EvConstruct (inl e))))
          | inr o =>
              let instance := length (heap σ) in
              Some (Config (State (heap σ ++ [o]) (_instances σ)) (_lock c)
                      (next (PcStore instance))
                      (note (EvConstruct (inr instance))))
          end
      | PcStore instance =>
          Some (Config (State (heap σ) (<[self := instance]> (_instances σ)))
                  (_lock c) (next PcRead) (note (EvStore instance)))
      | PcRead =>
          let r := fst (return_stored self σ) in
          Some (Config σ (_lock c) (next (PcExit r)) (note (EvRead r)))
      | PcExit r =>
          Some (Config σ None (next (PcDone r)) (note EvRelease))
      | PcDone _ => None
      end
  end.

(** The scheduler picks a thread; picking one that cannot move changes
    nothing. *)
Definition sched_step (c : config) (t : nat) : config :=
  default c (thread_step t c).

Definition run (sched : list nat) (c : config) : config :=
  fold_left sched_step sched c.

(** Threads that are all about to call, on a store [σ], with the lock
    free. *)
Definition spawn (cs : list (string * Args)) (σ : state) : config :=
  Config σ None (map (λ sa, Thread sa.1 sa.2 PcStart) cs) [].

Definition outcome (t : nat) (c : config) : option (result nat) :=
  match threads c !! t with
  | Some (Thread _ _ (PcDone r)) => Some r
  | _ => None
  end.

Definition is_done (th : thread) : bool :=
  match th_pc th with PcDone _ => true | _ => false end.

Definition all_done (c : config) : bool := forallb is_done (threads c).



(** The constructions of class [self] that yielded an object. *)
Definition is_construction (self : string) (e : entry) : bool :=
  match e_event e with
  | EvConstruct (inr _) => bool_decide (e_self e = self)
  | _ => false
  end.

Definition constructions (self : string) (c : config) : nat :=
  length (filter (λ e, is_construction self e = true) (log c)).

(** What one thread did, in order. *)
Definition events_of (t : nat) (l : list entry) : list event :=
  map e_event (filter (λ e, e_thread e = t) l).

(** The three ways through the method. *)
Definition path_hit (instance : nat) : list event :=
  [EvAcquire; EvCheck true; EvRead (Return instance); EvRelease].

Definition path_miss (instance : nat) : list event :=
  [EvAcquire; EvCheck false; EvConstruct (inr instance); EvStore instance;
   EvRead (Return instance); EvRelease].

Definition path_raise (e : exn) : list event :=
  [EvAcquire; EvCheck false; EvConstruct (inl e); EvRelease].


(** *** What holds of every configuration the threads can reach *)

(** Between taking the lock and releasing it. *)
Definition in_critical (p : pc) : bool :=
  match p with
  | PcStart | PcDone _ => false
  | _ => true
  end.

(** The lock is held by the one thread that is inside the [with] block. *)
Definition lock_inv (c : config) : Prop :=
  (∀ t th, threads c !! t = Some th →
     (in_critical (th_pc th) = true ↔ _lock c = Some t)) ∧
  (∀ t, _lock c = Some t → is_Some (threads c !! t)).

(** What a thread knows of the dict at its program point. *)
Definition pc_ok (σ : state) (th : thread) : Prop :=
  match th_pc th with
  | PcStart | PcCheck => True
  | PcConstruct | PcStore _ => _instances σ !! th_self th = None
  | PcRead => is_Some (_instances σ !! th_self th)
  | PcExit (Return i) | PcDone (Return i) =>
      _instances σ !! th_self th = Some i
  | PcExit (Raise e) | PcDone (Raise e) =>
      type_call (th_self th) (th_args th) = inl e
  end.

Definition pcs_inv (c : config) : Prop :=
  ∀ t th, threads c !! t = Some th → pc_ok (store c) th.



(** What a thread has done so far, at its program point. *)
Definition trace_at (σ : state) (th : thread) (tr : list event) : Prop :=
  match th_pc th with
  | PcStart => tr = []
  | PcCheck => tr = [EvAcquire]
  | PcConstruct => tr = [EvAcquire; EvCheck false]
  | PcStore i => tr = [EvAcquire; EvCheck false; EvConstruct (inr i)]
  | PcRead =>
      tr = [EvAcquire; EvCheck true] ∨
      ∃ i, tr = [EvAcquire; EvCheck false; EvConstruct (inr i); EvStore i] ∧
           _instances σ !! th_self th = Some i
  | PcExit r =>
      match r with
      | Return i =>
          tr = [EvAcquire; EvCheck true; EvRead (Return i)] ∨
          tr = [EvAcquire; EvCheck false; EvConstruct (inr i); EvStore i;
                EvRead (Return i)]
      | Raise e => tr = [EvAcquire; EvCheck false; EvConstruct (inl e)]
      end
  | PcDone r =>
      match r with
      | Return i => tr = path_hit i ∨ tr = path_miss i
      | Raise e => tr = path_raise e
      end
  end.

Definition trace_inv (c : config) : Prop :=
  ∀ t th, threads c !! t = Some th →
    trace_at (store c) th (events_of t (log c)).

(** The lock was free when it was taken, and every other statement was run
    by the thread that held it. *)
Definition entry_ok (e : entry) : Prop :=
  match e_event e with
  | EvAcquire => e_holder e = None
  | _ => e_holder e = Some (e_thread e)
  end.

Definition log_inv (c : config) : Prop := ∀ e, e ∈ log c → entry_ok e.

(** All of it but the count, which needs a class with no instance at the
    start. *)
Definition reachable_inv (c : config) : Prop :=
  lock_inv c ∧ pcs_inv c ∧ trace_inv c ∧ log_inv c.

(** The class and the arguments of each call. *)
Definition callers (c : config) : list (string * Args) :=
  map (λ th, (th_self th, th_args th)) (threads c).



(** The program points of a call that found the instance in the dict, or
    has not looked yet. *)
Definition hit_only (p : pc) : bool :=
  match p with
  | PcConstruct | PcStore _ | PcExit (Raise _) | PcDone (Raise _) => false
  | _ => true
  end.

(** *** Stores built by calls alone *)

(** Every entry of the dict is a reference into the heap, two classes
    never share an instance, and the heap holds nothing but the
    instances. *)
Definition wf (σ : state) : Prop :=
  (∀ k i, _instances σ !! k = Some i → i < length (heap σ)) ∧
  (∀ k k' i,
     _instances σ !! k = Some i → _instances σ !! k' = Some i → k = k') ∧
  length (heap σ) = size (_instances σ).

(** The object at reference [i] was built by a call of one of the threads
    on class [self], from the arguments of that call. *)
Definition made_by (self : string) (c : config) (i : nat) : Prop :=
  ∃ t th o,
    threads c !! t = Some th ∧ th_self th = self ∧
    type_call self (th_args th) = inr o ∧
    heap (store c) !! i = Some o.

Definition origin_inv (self : string) (c : config) : Prop :=
  (∀ i, _instances (store c) !! self = Some i → made_by self c i) ∧
  (∀ t th i,
     threads c !! t = Some th → th_self th = self → th_pc th = PcStore i →
     made_by self c i).

End Meta.

Arguments state : clear implicits.
Arguments thread : clear implicits.
Arguments config : clear implicits.

End SingletonMeta.

(** ** Singleton: the class [Singleton] *)

Module Singleton.

(** An instance carries the private attribute [__value]. *)
Record obj := Obj { __value : string }.

(** [Singleton.__init__(self, value)]: one argument besides [self], else
    the call raises [TypeError].  Arguments are positional strings. *)
Definition __init__ (args : list string) : exn + obj :=
  match args with
  | [value] => inr (Obj value)
  | _ => inl TypeError
  end.

(** The classes of the notebook that use the metaclass: [Singleton]. *)
Definition type_call (self : string) (args : list string) : exn + obj :=
  if decide (self = "Singleton") then __init__ args
  else inl (OtherError "NameError").

(** [some_business_logic] prints the value. *)
Definition some_business_logic (instance : nat) (σ : SingletonMeta.state obj)
  : option string :=
  __value <$> SingletonMeta.heap σ !! instance.

(** [test_singleton(value)]: [obj = Singleton(value)], then
    [obj.some_business_logic()]. *)
Definition test_singleton (value : string) (σ : SingletonMeta.state obj)
  : option string * SingletonMeta.state obj :=
  match SingletonMeta.__call__ type_call "Singleton" [value] σ with
  | (Return instance, σ') => (some_business_logic instance σ', σ')
  | (Raise _, σ') => (None, σ')
  end.

(** The store when the program starts, and the store after
    [Singleton("FOO")] on it. *)
Definition fresh : SingletonMeta.state obj := SingletonMeta.empty.

Definition after_foo : SingletonMeta.state obj :=
  (SingletonMeta.__call__ type_call "Singleton" ["FOO"] fresh).2.

(** The client code: thread 0 runs [test_singleton("FOO")] and thread 1
    runs [test_singleton("BAR")].  In [race] thread 1 gets the lock first;
    thread 0 is picked twice while it has to wait. *)
Definition client : SingletonMeta.config (list string) obj :=
  SingletonMeta.spawn (map (pair "Singleton") [["FOO"]; ["BAR"]]) fresh.

Definition bar_first : list nat := [1; 0; 1; 0; 1; 1; 1; 1; 0; 0; 0; 0].

Definition race : SingletonMeta.config (list string) obj :=
  SingletonMeta.run type_call bar_first client.

(** Two threads that call when the instance of ["FOO"] is there
    already, and two threads of which the first calls [Singleton()]. *)
Definition late_clients : SingletonMeta.config (list string) obj :=
  SingletonMeta.spawn
    (map (pair "Singleton") [["BAR"]; ["BAZ"]]) after_foo.

Definition faulty_clients : SingletonMeta.config (list string) obj :=
  SingletonMeta.spawn [("Singleton", []); ("Singleton", ["BAR"])] fresh.

Definition one_then_other : list nat := [0; 0; 0; 0; 1; 1; 1; 1; 1; 1].

(** [test_singleton] on each value in turn; what each call prints. *)
Fixpoint test_singletons (values : list string) (σ : SingletonMeta.state obj)
  : list (option string) * SingletonMeta.state obj :=
  match values with
  | [] => ([], σ)
  | value :: values' =>
      let '(out, σ1) := test_singleton value σ in
      let '(outs, σ2) := test_singletons values' σ1 in
      (out :: outs, σ2)
  end.

(** One thread per value, each running [test_singleton(value)], as the
    client code starts them. *)
Definition clients (values : list string)
  : SingletonMeta.config (list string) obj :=
  SingletonMeta.spawn
    (map (pair "Singleton") (map (λ value, [value]) values)) fresh.

(** What thread [t] prints in [obj.some_business_logic()] once its call
    [Singleton(value)] has returned [obj]. *)
Definition printed (t : nat) (c : SingletonMeta.config (list string) obj)
  : option string :=
  match SingletonMeta.outcome t c with
  | Some (Return instance) =>
      some_business_logic instance (SingletonMeta.store c)
  | _ => None
  end.

End Singleton.

(** ** Observer *)

Module Observer.

(** The two concrete observers; an observer object is its class and its
    identity.  They define no [__eq__], so [==] on them is identity. *)
Inductive observer :=
| ConcreteObserverA (id : nat)
| ConcreteObserverB (id : nat).

Global Instance observer_eq_dec : EqDecision observer.
Proof. solve_decision. Defined.

(** What a method does that can be seen from outside: the lines it prints
    and the calls of [update] it makes. *)
Inductive event :=
| Print (line : string)
| Update (o : observer) (subject : nat).

Global Instance event_eq_dec : EqDecision event.
Proof. solve_decision. Defined.

(** The store.  [_observers] is the class attribute
    [ConcreteSubject._observers = []]: no method assigns
    [self._observers], so for every subject [self._observers] is this one
    list.  [_state] holds the instance attribute [_state] of the subjects
    that assigned it; for the others [self._state] is the class attribute,
    [None]. *)
Record state := State {
  _observers : list observer;
  _state : gmap nat Z
}.

Definition empty : state := State [] ∅.

(** [list.remove(x)]: drops the first item equal to [x]; [None] stands for
    the [ValueError] when there is none. *)
Fixpoint remove (x : observer) (l : list observer) : option (list observer) :=
  match l with
  | [] => None
  | y :: l' => if decide (y = x) then Some l' else cons y <$> remove x l'
  end.

(** [ConcreteObserverA.update] and [ConcreteObserverB.update], on the
    value of [subject._state]; comparing [None] with an [int] by [<] or
    [>=] raises [TypeError], and [None == 0] is false. *)
Definition update (o : observer) (st : option Z) : list event * result () :=
  match o with
  | ConcreteObserverA _ =>
      match st with
      | None => ([], Raise TypeError)
      | Some n =>
          (if (n <? 3)%Z then [Print "ConcreteObserverA: Reacted to the event"]
           else [], Return ())
      end
  | ConcreteObserverB _ =>
      match st with
      | None => ([], Raise TypeError)
      | Some n =>
          (if ((n =? 0) || (n >=? 2))%Z
           then [Print "ConcreteObserverB: Reacted to the event"]
           else [], Return ())
      end
  end.

(** [ConcreteSubject.attach] *)
Definition attach (self : nat) (o : observer) (σ : state)
  : list event * state :=
  ([Print "Subject: Attached an observer."],
   State (_observers σ ++ [o]) (_state σ)).

(** [ConcreteSubject.detach] *)
Definition detach (self : nat) (o : observer) (σ : state)
  : list event * result () * state :=
  match remove o (_observers σ) with
  | Some l => ([Print "Subject: Detached an observer."], Return (),
               State l (_state σ))
  | None => ([Print "Subject: Detached an observer."], Raise ValueError, σ)
  end.

(** [for observer in self._observers: observer.update(self)]; an
    exception leaves the loop. *)
Fixpoint notify_loop (self : nat) (st : option Z) (l : list observer)
  : list event * result () :=
  match l with
  | [] => ([], Return ())
  | o :: l' =>
      match update o st with
      | (out, Raise e) => (Update o self :: out, Raise e)
      | (out, Return _) =>
          let '(out', r) := notify_loop self st l' in
          (Update o self :: out ++ out', r)
      end
  end.

(** [ConcreteSubject.notify] *)
Definition notify (self : nat) (σ : state) : list event * result () :=
  let '(out, r) := notify_loop self (_state σ !! self) (_observers σ) in
  (Print "Subject: Notifying observers..." :: out, r).

(** [ConcreteSubject.some_business_logic]; [r] is the value drawn by
    [randrange(0, 10)]. *)
Definition some_business_logic (self : nat) (r : Z) (σ : state)
  : list event * result () * state :=
  let σ' := State (_observers σ) (<[self := r]> (_state σ)) in
  let '(out, res) := notify self σ' in
  (Print "
Subject: I'm doing something important."
   :: Print ("Subject: My state has just changed to: " +:+ pretty r)
   :: out, res, σ').

(** The calls of [update] among the events, in order. *)
Definition updates (out : list event) : list (observer * nat) :=
  omap (λ ev, match ev with
              | Update o s => Some (o, s)
              | Print _ => None
              end) out.

(** How many times [update] was called on [o]. *)
Definition times_updated (o : observer) (out : list event) : nat :=
  length (filter (λ os, os.1 = o) (updates out)).

(** Does the observer print its reaction when [_state] is [n]? *)
Definition reacts (o : observer) (n : Z) : bool :=
  match o with
  | ConcreteObserverA _ => (n <? 3)%Z
  | ConcreteObserverB _ => ((n =? 0) || (n >=? 2))%Z
  end.

Definition reaction (o : observer) : string :=
  match o with
  | ConcreteObserverA _ => "ConcreteObserverA: Reacted to the event"
  | ConcreteObserverB _ => "ConcreteObserverB: Reacted to the event"
  end.

(** The lines printed among the events, in order. *)
Definition prints (out : list event) : list string :=
  omap (λ ev, match ev with
              | Print line => Some line
              | Update _ _ => None
              end) out.

(** The client code: a subject, observers A and B attached, two rounds of
    business logic, A detached, one more round.  [r1], [r2], [r3] are the
    three values drawn by [randrange(0, 10)].  An exception ends the
    program. *)
Definition main (r1 r2 r3 : Z) : list event * result () :=
  let subject := 0 in
  let observer_a := ConcreteObserverA 1 in
  let observer_b := ConcreteObserverB 2 in
  let '(out1, σ1) := attach subject observer_a empty in
  let '(out2, σ2) := attach subject observer_b σ1 in
  match some_business_logic subject r1 σ2 with
  | (out3, Raise e, _) => (out1 ++ out2 ++ out3, Raise e)
  | (out3, Return _, σ3) =>
      match some_business_logic subject r2 σ3 with
      | (out4, Raise e, _) => (out1 ++ out2 ++ out3 ++ out4, Raise e)
      | (out4, Return _, σ4) =>
          match detach subject observer_a σ4 with
          | (out5, Raise e, _) =>
              (out1 ++ out2 ++ out3 ++ out4 ++ out5, Raise e)
          | (out5, Return _, σ5) =>
              let '(out6, r, _) := some_business_logic subject r3 σ5 in
              (out1 ++ out2 ++ out3 ++ out4 ++ out5 ++ out6, r)
          end
      end
  end.

(** What one round of [some_business_logic] prints when the value drawn
    is [r] and the list of observers is [l]. *)
Definition round_output (r : Z) (l : list observer) : list string :=
  ["
Subject: I'm doing something important.";
   "Subject: My state has just changed to: " +:+ pretty r;
   "Subject: Notifying observers..."] ++
  (reaction <$> filter (λ o, reacts o r = true) l).

(** *** Stores used below *)

(** Observer A attached twice to subject 0, whose [_state] is 0. *)
Definition twice_attached : state :=
  (attach 0 (ConcreteObserverA 1)
     (attach 0 (ConcreteObserverA 1) (State [] {[0%nat := 0%Z]})).2).2.

(** Two subjects, 1 and 2, neither with [_state] assigned; observer A is
    attached, then observer B through subject 1. *)
Definition a_then_b : state :=
  (attach 1 (ConcreteObserverB 2) (attach 1 (ConcreteObserverA 1) empty).2).2.

End Observer.

(** * Properties *)

(** ** The registry, one caller at a time *)

Section Registry.

Import SingletonMeta.

Context {Args Obj : Type}.
Variable type_call : string → Args → exn + Obj.

Local Abbreviation __call__ := (__call__ type_call).
Local Abbreviation calls := (calls type_call).

Lemma return_stored_some self (σ : state Obj) instance :
  _instances σ !! self = Some instance →
  return_stored self σ = (Return instance, σ).
Proof. intros H. unfold return_stored. by rewrite H. Qed.

Lemma call_hit self args (σ : state Obj) instance :
  _instances σ !! self = Some instance →
  __call__ self args σ = (Return instance, σ).
Proof.
  intros H. unfold SingletonMeta.__call__. rewrite H.
  by apply return_stored_some.
Qed.

Lemma call_miss self args (σ : state Obj) o :
  _instances σ !! self = None →
  type_call self args = inr o →
  __call__ self args σ =
    (Return (length (heap σ)),
     State (heap σ ++ [o]) (<[self := length (heap σ)]> (_instances σ))).
Proof.
  intros Hnone Hnew. unfold SingletonMeta.__call__. rewrite Hnone, Hnew.
  apply return_stored_some. simpl. apply lookup_insert_eq.
Qed.

Lemma call_fail self args (σ : state Obj) e :
  _instances σ !! self = None →
  type_call self args = inl e →
  __call__ self args σ = (Raise e, σ).
Proof.
  intros Hnone Hnew. unfold SingletonMeta.__call__. by rewrite Hnone, Hnew.
Qed.

(** A call never touches an entry that is there. *)
Lemma call_keeps_entries self args (σ : state Obj) k instance :
  _instances σ !! k = Some instance →
  _instances (__call__ self args σ).2 !! k = Some instance.
Proof.
  intros Hk.
  destruct (_instances σ !! self) as [i|] eqn:Hself.
  - by rewrite (call_hit _ _ _ _ Hself).
  - destruct (type_call self args) as [e|o] eqn:Hnew.
    + by rewrite (call_fail _ _ _ _ Hself Hnew).
    + rewrite (call_miss _ _ _ _ Hself Hnew). simpl.
      rewrite lookup_insert_ne; [done | congruence].
Qed.

Lemma calls_cons self args cs (σ : state Obj) :
  calls ((self, args) :: cs) σ =
    ((__call__ self args σ).1 :: (calls cs (__call__ self args σ).2).1,
     (calls cs (__call__ self args σ).2).2).
Proof.
  simpl. destruct (__call__ self args σ) as [r σ1]. simpl.
  by destruct (calls cs σ1).
Qed.

Lemma calls_keep_entries cs : ∀ (σ : state Obj) k instance,
  _instances σ !! k = Some instance →
  _instances (calls cs σ).2 !! k = Some instance.
Proof.
  induction cs as [|[self args] cs IH]; intros σ k instance Hk; [done|].
  rewrite calls_cons. simpl. apply IH. by apply call_keeps_entries.
Qed.

(** C2.  A call on a class whose instance is in the registry returns that
    instance and leaves the whole store as it was, objects included,
    whatever the arguments of the call are. *)
Theorem call_returns_stored_instance self args (σ : state Obj) instance :
  _instances σ !! self = Some instance →
  __call__ self args σ = (Return instance, σ).
Proof. apply call_hit. Qed.

(** C3.  A call on a class that has no instance yet builds the object from
    the arguments of the call, allocates it at a fresh reference, stores
    that reference under the class and returns it; nothing else in the
    registry changes. *)
Theorem call_constructs_and_stores self args (σ : state Obj) o :
  _instances σ !! self = None →
  type_call self args = inr o →
  ∃ instance σ',
    __call__ self args σ = (Return instance, σ') ∧
    heap σ !! instance = None ∧
    heap σ' !! instance = Some o ∧
    heap σ' = heap σ ++ [o] ∧
    _instances σ' !! self = Some instance ∧
    _instances σ' = <[self := instance]> (_instances σ).
Proof.
  intros Hnone Hnew. eexists _, _. split; [by apply call_miss|]. simpl.
  split_and!; try done.
  - by apply lookup_ge_None_2.
  - rewrite lookup_app_r by done. by rewrite Nat.sub_diag.
  - apply lookup_insert_eq.
Qed.

(** C4.  After any sequence of calls the registry holds at most one entry
    per class, and every entry that was there before the sequence is still
    there with the same instance. *)
Theorem registry_entries_are_unique_and_stable cs (σ : state Obj) :
  NoDup (map_to_list (_instances (calls cs σ).2)).*1 ∧
  ∀ k instance,
    _instances σ !! k = Some instance →
    _instances (calls cs σ).2 !! k = Some instance.
Proof.
  split; [apply NoDup_fst_map_to_list|]. apply calls_keep_entries.
Qed.

(** C6.  When the construction raises, the call raises the same exception
    and the store is unchanged, so the class still has no entry; a later
    call whose construction succeeds then builds and stores the instance. *)
Theorem call_failure_leaves_slot_empty self args (σ : state Obj) e :
  _instances σ !! self = None →
  type_call self args = inl e →
  __call__ self args σ = (Raise e, σ) ∧
  _instances (__call__ self args σ).2 !! self = None ∧
  ∀ args' o,
    type_call self args' = inr o →
    ∃ instance σ',
      __call__ self args' (__call__ self args σ).2 = (Return instance, σ') ∧
      _instances σ' !! self = Some instance ∧
      heap σ' !! instance = Some o.
Proof.
  intros Hnone Hnew. rewrite (call_fail _ _ _ _ Hnone Hnew). simpl.
  split_and!; try done.
  intros args' o Hnew'.
  eexists _, _. split; [by apply call_miss|]. simpl. split.
  - apply lookup_insert_eq.
  - rewrite lookup_app_r by done. by rewrite Nat.sub_diag.
Qed.

(** C7.  Once a class has its instance, any number of further calls on
    that class, with any arguments, all return that instance and leave the
    store, and so the entry of the class, exactly as it was. *)
Theorem repeated_calls_leave_registry_unchanged self instance
    (argss : list Args) (σ : state Obj) :
  _instances σ !! self = Some instance →
  calls (map (pair self) argss) σ =
    (replicate (length argss) (Return instance), σ).
Proof.
  intros Hk. induction argss as [|args argss IH]; [done|].
  simpl map. rewrite calls_cons, (call_hit _ _ _ _ Hk). simpl.
  by rewrite IH.
Qed.

(** *** More on the registry *)

Lemma call_cases self args (σ : state Obj) :
  (∃ i, _instances σ !! self = Some i ∧
        __call__ self args σ = (Return i, σ)) ∨
  (∃ e, _instances σ !! self = None ∧ type_call self args = inl e ∧
        __call__ self args σ = (Raise e, σ)) ∨
  (∃ o, _instances σ !! self = None ∧ type_call self args = inr o ∧
        __call__ self args σ =
          (Return (length (heap σ)),
           State (heap σ ++ [o])
             (<[self := length (heap σ)]> (_instances σ)))).
Proof.
  destruct (_instances σ !! self) as [i|] eqn:Hself.
  - left. exists i. split; [done|]. by apply call_hit.
  - destruct (type_call self args) as [e|o] eqn:Hnew.
    + right; left. exists e. split_and!; [done|done|]. by apply call_fail.
    + right; right. exists o. split_and!; [done|done|]. by apply call_miss.
Qed.

(** A call raises only what the construction raises, and only for a class
    with no instance; the store is then as before.  So the lookup of the
    [return] statement never fails. *)
Theorem call_raises_only_from_construction self args (σ : state Obj) e :
  (__call__ self args σ).1 = Raise e →
  _instances σ !! self = None ∧
  type_call self args = inl e ∧
  (__call__ self args σ).2 = σ.
Proof.
  destruct (call_cases self args σ)
    as [(i & Hi & ->)|[(e' & Hnone & Hnew & ->)|(o & Hnone & Hnew & ->)]];
    simpl; try done.
  by intros [= ->].
Qed.

(** A call on one class leaves the entry of every other class as it was,
    absent ones too. *)
Theorem call_leaves_other_classes self args (σ : state Obj) k :
  k ≠ self →
  _instances (__call__ self args σ).2 !! k = _instances σ !! k.
Proof.
  intros Hne.
  destruct (call_cases self args σ)
    as [(i & Hi & ->)|[(e' & Hnone & Hnew & ->)|(o & Hnone & Hnew & ->)]];
    simpl; try done.
  by rewrite lookup_insert_ne.
Qed.

Lemma call_heap self args (σ : state Obj) :
  heap σ `prefix_of` heap (__call__ self args σ).2 ∧
  length (heap (__call__ self args σ).2) ≤ S (length (heap σ)).
Proof.
  destruct (call_cases self args σ)
    as [(i & Hi & ->)|[(e' & Hnone & Hnew & ->)|(o & Hnone & Hnew & ->)]];
    simpl; try (split; [done|lia]).
  split; [by eexists|]. rewrite length_app. simpl. lia.
Qed.

(** Objects are never moved, changed or dropped by calls: the heap after a
    sequence of calls starts with the heap before, and has at most one more
    object per call. *)
Theorem calls_keep_objects cs : ∀ σ : state Obj,
  heap σ `prefix_of` heap (calls cs σ).2 ∧
  length (heap (calls cs σ).2) ≤ length (heap σ) + length cs.
Proof.
  induction cs as [|[self args] cs IH]; intros σ.
  - simpl. split; [done|lia].
  - rewrite calls_cons. simpl.
    destruct (call_heap self args σ) as [Hpre Hlen].
    destruct (IH (__call__ self args σ).2) as [Hpre' Hlen'].
    split; [by etrans|lia].
Qed.

Lemma call_keeps_wf self args (σ : state Obj) :
  wf σ → wf (__call__ self args σ).2.
Proof.
  intros (Hin & Hinj & Hsize).
  destruct (call_cases self args σ)
    as [(i & Hi & ->)|[(e' & Hnone & Hnew & ->)|(o & Hnone & Hnew & ->)]];
    simpl; try done.
  split_and!; simpl.
  - intros k i. rewrite length_app. simpl.
    destruct (decide (k = self)) as [->|Hne].
    + rewrite lookup_insert_eq. intros [= <-]. lia.
    + rewrite lookup_insert_ne by done. intros Hk%Hin. lia.
  - intros k k' i.
    destruct (decide (k = self)) as [->|Hne];
      destruct (decide (k' = self)) as [->|Hne']; try done.
    + rewrite lookup_insert_eq, lookup_insert_ne by done.
      intros [= <-] Hk'%Hin. lia.
    + rewrite lookup_insert_eq, lookup_insert_ne by done.
      intros Hk%Hin [= <-]. lia.
    + rewrite !lookup_insert_ne by done. apply Hinj.
  - rewrite length_app, map_size_insert_None by done. simpl. lia.
Qed.

(** Starting from a store in which every entry refers to an object of the
    heap, no two classes share an instance and the heap holds one object
    per entry, every sequence of calls ends in such a store: no reference
    dangles, two classes never get the same instance, and no object is
    built that is not the instance of a class. *)
Theorem calls_keep_wf cs : ∀ σ : state Obj, wf σ → wf (calls cs σ).2.
Proof.
  induction cs as [|[self args] cs IH]; intros σ Hwf; [done|].
  rewrite calls_cons. simpl. by apply IH, call_keeps_wf.
Qed.

End Registry.

(** ** The class [Singleton] of the notebook *)

Section SingletonClass.

Import SingletonMeta.

Local Abbreviation Singleton_call := (__call__ Singleton.type_call "Singleton").

Local Abbreviation empty := Singleton.fresh.
Local Abbreviation after_foo := Singleton.after_foo.

(** The output of the notebook: ["FOO"] twice, when the thread of
    ["FOO"] is first. *)
Lemma test_singleton_foo_then_bar :
  Singleton.test_singleton "FOO" empty = (Some "FOO", after_foo) ∧
  Singleton.test_singleton "BAR" after_foo = (Some "FOO", after_foo).
Proof. split; reflexivity. Qed.

(** [Singleton("FOO")] then [Singleton("BAR")]: the second call returns the
    object of the first, whose value is still ["FOO"]. *)
Lemma call_returns_stored_instance_witness :
  (Singleton_call ["FOO"] empty).1 = Return 0 ∧
  Singleton_call ["BAR"] after_foo = (Return 0, after_foo) ∧
  Singleton.some_business_logic 0 after_foo = Some "FOO".
Proof.
  split; [reflexivity|]. split; [|reflexivity].
  apply (call_returns_stored_instance Singleton.type_call
           "Singleton" ["BAR"] after_foo 0).
  reflexivity.
Defined.

Lemma call_constructs_and_stores_witness :
  ∃ instance (σ' : state Singleton.obj),
    Singleton_call ["FOO"] empty = (Return instance, σ') ∧
    heap empty !! instance = None ∧
    heap σ' !! instance = Some (Singleton.Obj "FOO") ∧
    heap σ' = heap empty ++ [Singleton.Obj "FOO"] ∧
    _instances σ' !! "Singleton" = Some instance ∧
    _instances σ' = <["Singleton" := instance]> (_instances empty).
Proof.
  apply (call_constructs_and_stores Singleton.type_call
           "Singleton" ["FOO"] empty (Singleton.Obj "FOO")); reflexivity.
Defined.

Lemma registry_entries_are_unique_and_stable_witness :
  _instances (calls Singleton.type_call
                [("Singleton", ["BAR"]); ("Singleton", [])] after_foo).2
    !! "Singleton" = Some 0.
Proof.
  apply (registry_entries_are_unique_and_stable Singleton.type_call
           [("Singleton", ["BAR"]); ("Singleton", [])] after_foo).
  reflexivity.
Defined.

(** [Singleton()] raises [TypeError] and stores nothing; [Singleton("FOO")]
    after it builds the instance. *)
Lemma call_failure_leaves_slot_empty_witness :
  Singleton_call [] empty = (Raise TypeError, empty) ∧
  _instances (Singleton_call [] empty).2 !! "Singleton" = None ∧
  ∀ args' o,
    Singleton.type_call "Singleton" args' = inr o →
    ∃ instance σ',
      Singleton_call args' (Singleton_call [] empty).2 = (Return instance, σ') ∧
      _instances σ' !! "Singleton" = Some instance ∧
      heap σ' !! instance = Some o.
Proof.
  apply (call_failure_leaves_slot_empty Singleton.type_call
           "Singleton" [] empty TypeError); reflexivity.
Defined.

Lemma repeated_calls_leave_registry_unchanged_witness :
  calls Singleton.type_call
    (map (pair "Singleton") [["BAR"]; []; ["BAZ"; "QUX"]]) after_foo =
    (replicate 3 (Return 0), after_foo).
Proof.
  apply (repeated_calls_leave_registry_unchanged Singleton.type_call
           "Singleton" 0 [["BAR"]; []; ["BAZ"; "QUX"]] after_foo).
  reflexivity.
Defined.

(** *** More on the class *)

Lemma wf_fresh : wf Singleton.fresh.
Proof.
  split_and!; [| |done].
  - intros k i Hk. simpl in Hk. by rewrite lookup_empty in Hk.
  - intros k k' i Hk. simpl in Hk. by rewrite lookup_empty in Hk.
Qed.

Lemma call_raises_only_from_construction_witness :
  _instances empty !! "Singleton" = None ∧
  Singleton.type_call "Singleton" [] = inl TypeError ∧
  (Singleton_call [] empty).2 = empty.
Proof.
  apply (call_raises_only_from_construction Singleton.type_call
           "Singleton" [] empty TypeError).
  reflexivity.
Defined.

Lemma call_leaves_other_classes_witness :
  _instances (Singleton_call ["FOO"] empty).2 !! "Other" =
  _instances empty !! "Other".
Proof.
  apply (call_leaves_other_classes Singleton.type_call
           "Singleton" ["FOO"] empty "Other").
  discriminate.
Defined.

Lemma calls_keep_wf_witness :
  wf (calls Singleton.type_call
        [("Singleton", ["FOO"]); ("Singleton", []); ("Singleton", ["BAR"])]
        empty).2.
Proof.
  apply (calls_keep_wf Singleton.type_call
           [("Singleton", ["FOO"]); ("Singleton", []); ("Singleton", ["BAR"])]
           empty).
  apply wf_fresh.
Defined.

Lemma test_singleton_stored value (σ : state Singleton.obj) i w :
  _instances σ !! "Singleton" = Some i →
  heap σ !! i = Some (Singleton.Obj w) →
  Singleton.test_singleton value σ = (Some w, σ).
Proof.
  intros Hi Hw. unfold Singleton.test_singleton.
  rewrite (call_hit Singleton.type_call _ _ _ _ Hi).
  unfold Singleton.some_business_logic. by rewrite Hw.
Qed.

Lemma test_singletons_stored values : ∀ (σ : state Singleton.obj) i w,
  _instances σ !! "Singleton" = Some i →
  heap σ !! i = Some (Singleton.Obj w) →
  Singleton.test_singletons values σ =
    (replicate (length values) (Some w), σ).
Proof.
  induction values as [|value values IH]; intros σ i w Hi Hw; [done|].
  simpl. rewrite (test_singleton_stored _ _ _ _ Hi Hw).
  by rewrite (IH _ _ _ Hi Hw).
Qed.

(** Calls of [test_singleton] one after the other, on a fresh registry:
    every call prints the value given to the first, and the heap holds the
    one object built from it. *)
Theorem test_singletons_print_the_first value values :
  Singleton.test_singletons (value :: values) empty =
    (replicate (S (length values)) (Some value),
     State [Singleton.Obj value] {["Singleton" := 0]}).
Proof.
  simpl Singleton.test_singletons.
  assert (Singleton.test_singleton value empty =
          (Some value, State [Singleton.Obj value] {["Singleton" := 0]}))
    as -> by reflexivity.
  by rewrite (test_singletons_stored values _ 0 value).
Qed.

End SingletonClass.

(** ** The subject and its observers *)

Section Subject.

Import Observer.

Lemma remove_absent x l : x ∉ l → remove x l = None.
Proof.
  induction l as [|y l IH]; intros Hx; [done|].
  apply not_elem_of_cons in Hx as [Hne Hx]. simpl.
  rewrite decide_False by done. by rewrite IH.
Qed.

Lemma remove_first x l1 l2 :
  x ∉ l1 → remove x (l1 ++ x :: l2) = Some (l1 ++ l2).
Proof.
  induction l1 as [|y l1 IH]; intros Hx; simpl.
  - by rewrite decide_True.
  - apply not_elem_of_cons in Hx as [Hne Hx].
    rewrite decide_False by done. by rewrite IH.
Qed.

(** With [_state] set, no [update] raises. *)
Lemma update_set o n : (update o (Some n)).2 = Return ().
Proof. by destruct o. Qed.

Lemma update_only_prints o st : updates (update o st).1 = [].
Proof.
  destruct o, st as [n|]; simpl; try done.
  - by destruct (n <? 3)%Z.
  - by destruct ((n =? 0) || (n >=? 2))%Z.
Qed.

Lemma updates_app out1 out2 : updates (out1 ++ out2) = updates out1 ++ updates out2.
Proof. apply omap_app. Qed.

Lemma notify_loop_set self n l :
  (notify_loop self (Some n) l).2 = Return () ∧
  updates (notify_loop self (Some n) l).1 = (λ o, (o, self)) <$> l.
Proof.
  induction l as [|o l [IHr IHu]]; [done|]. simpl.
  pose proof (update_set o n) as Hr.
  pose proof (update_only_prints o (Some n)) as Hu.
  destruct (update o (Some n)) as [out r]. simpl in *. subst r.
  destruct (notify_loop self (Some n) l) as [out' r']. simpl in *.
  split; [done|]. rewrite updates_app, Hu, IHu. done.
Qed.

(** With [_state] unset, the first [update] raises and ends the loop. *)
Lemma notify_loop_unset self o l :
  notify_loop self None (o :: l) = ([Update o self], Raise TypeError).
Proof. by destruct o. Qed.

Lemma notify_set self σ n :
  _state σ !! self = Some n →
  (notify self σ).2 = Return () ∧
  updates (notify self σ).1 = (λ o, (o, self)) <$> _observers σ.
Proof.
  intros Hst. unfold notify. rewrite Hst.
  destruct (notify_loop_set self n (_observers σ)) as [Hr Hu].
  by destruct (notify_loop self (Some n) (_observers σ)).
Qed.

Lemma filter_fst_pair (o : observer) (self : nat) l :
  length (filter (λ os : observer * nat, os.1 = o) ((λ o', (o', self)) <$> l)) =
  length (filter (λ o', o' = o) l).
Proof.
  induction l as [|y l IH]; [done|]. rewrite fmap_cons, !filter_cons. simpl.
  destruct (decide (y = o)); simpl; by rewrite IH.
Qed.

(** C8, as amended.  On a subject whose [_state] is set, [notify] returns
    normally and its calls of [update] are, in order, one per entry of the
    observer list; an observer is called as many times as it is in the
    list; and [attach] puts the observer at the end of the list, so the
    order is the order of attachment. *)
Theorem notify_updates_each_entry_in_order self σ n :
  _state σ !! self = Some n →
  (notify self σ).2 = Return () ∧
  updates (notify self σ).1 = (λ o, (o, self)) <$> _observers σ ∧
  (∀ o, times_updated o (notify self σ).1 =
        length (filter (λ o', o' = o) (_observers σ))) ∧
  (∀ s o, _observers (attach s o σ).2 = _observers σ ++ [o]).
Proof.
  intros Hst. destruct (notify_set self σ n Hst) as [Hr Hu].
  split_and!; try done.
  intros o. unfold times_updated. rewrite Hu. apply filter_fst_pair.
Qed.

Lemma notify_updates_each_entry_in_order_witness :
  (notify 0 twice_attached).2 = Return () ∧
  updates (notify 0 twice_attached).1 =
    (λ o, (o, 0%nat)) <$> _observers twice_attached ∧
  (∀ o, times_updated o (notify 0 twice_attached).1 =
        length (filter (λ o', o' = o) (_observers twice_attached))) ∧
  (∀ s o, _observers (attach s o twice_attached).2 =
          _observers twice_attached ++ [o]).
Proof.
  apply (notify_updates_each_entry_in_order 0 twice_attached 0%Z).
  reflexivity.
Defined.

(** C8, as stated, fails: an observer attached twice is attached, and
    [notify] calls [update] on it twice, not exactly once. *)
Lemma notify_twice_attached_counterexample :
  ConcreteObserverA 1 ∈ _observers twice_attached ∧
  (notify 0 twice_attached).2 = Return () ∧
  times_updated (ConcreteObserverA 1) (notify 0 twice_attached).1 = 2 ∧
  ¬ times_updated (ConcreteObserverA 1) (notify 0 twice_attached).1 = 1.
Proof.
  split_and!.
  - apply list_elem_of_here.
  - reflexivity.
  - reflexivity.
  - discriminate.
Qed.

(** [some_business_logic] sets [_state] before it notifies, so its
    [notify] reaches every entry of the list. *)
Lemma some_business_logic_notifies_all self r σ :
  ((some_business_logic self r σ).1).2 = Return () ∧
  updates ((some_business_logic self r σ).1).1 =
    (λ o, (o, self)) <$> _observers σ.
Proof.
  unfold some_business_logic.
  destruct (notify_set self (State (_observers σ) (<[self := r]> (_state σ))) r)
    as [Hr Hu]; [apply lookup_insert_eq|].
  destruct (notify self _) as [out res]. simpl in *. done.
Qed.

(** The observer list is shared: an observer attached through one subject
    is in the list every subject notifies, and a subject whose [_state] is
    set calls it. *)
Lemma attach_is_seen_by_every_subject s1 s2 o σ n :
  _state σ !! s2 = Some n →
  (o, s2) ∈ updates (notify s2 (attach s1 o σ).2).1.
Proof.
  intros Hst.
  destruct (notify_set s2 (attach s1 o σ).2 n Hst) as [_ ->].
  simpl. rewrite fmap_app. apply elem_of_app. right. apply list_elem_of_here.
Qed.

(** C9 at that input: [notify] on subject 2 calls A, whose [update] raises
    [TypeError] on the unset [_state], and never calls B. *)
Theorem notify_unset_state_stops_at_first :
  notify 2 a_then_b =
    ([Print "Subject: Notifying observers...";
      Update (ConcreteObserverA 1) 2], Raise TypeError) ∧
  (ConcreteObserverB 2, 2%nat) ∉ updates (notify 2 a_then_b).1.
Proof.
  assert (notify 2 a_then_b =
            ([Print "Subject: Notifying observers...";
              Update (ConcreteObserverA 1) 2], Raise TypeError)) as Hn
    by reflexivity.
  split; [exact Hn|]. rewrite Hn. simpl.
  intros H. apply list_elem_of_singleton in H. discriminate.
Qed.

(** C10.  [detach] of an observer that is not in the list raises
    [ValueError] and leaves the store as it was; [detach] of an observer
    that is in the list returns and drops its first occurrence only. *)
Theorem detach_removes_first_occurrence self o σ :
  (o ∉ _observers σ →
     ((detach self o σ).1).2 = Raise ValueError ∧
     (detach self o σ).2 = σ) ∧
  (o ∈ _observers σ →
     ∃ l1 l2,
       _observers σ = l1 ++ o :: l2 ∧ (o ∉ l1) ∧
       ((detach self o σ).1).2 = Return () ∧
       _observers (detach self o σ).2 = l1 ++ l2 ∧
       _state (detach self o σ).2 = _state σ).
Proof.
  split.
  - intros Hno. unfold detach. by rewrite remove_absent.
  - intros Hin. apply list_elem_of_split_l in Hin as (l1 & l2 & Hl & Hno).
    exists l1, l2. unfold detach. rewrite Hl, remove_first by done. done.
Qed.

Lemma detach_removes_first_occurrence_witness :
  ((detach 0 (ConcreteObserverB 2) twice_attached).1).2 = Raise ValueError ∧
  (detach 0 (ConcreteObserverB 2) twice_attached).2 = twice_attached ∧
  _observers (detach 0 (ConcreteObserverA 1) twice_attached).2 =
    [ConcreteObserverA 1].
Proof.
  destruct (detach_removes_first_occurrence
              0 (ConcreteObserverB 2) twice_attached) as [Hno _].
  destruct Hno as [Hr Hs].
  { simpl. apply not_elem_of_cons; split; [discriminate|].
    apply not_elem_of_cons; split; [discriminate|]. apply not_elem_of_nil. }
  split; [exact Hr|]. split; [exact Hs|]. reflexivity.
Defined.

(** *** More on the subject *)

Lemma remove_present x l l' :
  remove x l = Some l' →
  ∃ l1 l2, l = l1 ++ x :: l2 ∧ (x ∉ l1) ∧ l' = l1 ++ l2.
Proof.
  revert l'. induction l as [|y l IH]; intros l' Hrm; [done|].
  simpl in Hrm. destruct (decide (y = x)) as [->|Hne].
  - injection Hrm as <-. exists [], l. split_and!; [done| |done].
    apply not_elem_of_nil.
  - destruct (remove x l) as [l''|] eqn:Hl; [|done].
    injection Hrm as <-.
    destruct (IH _ eq_refl) as (l1 & l2 & -> & Hno & ->).
    exists (y :: l1), l2. split_and!; [done| |done].
    apply not_elem_of_cons. by split.
Qed.

Lemma update_set_prints o n :
  update o (Some n) =
    (if reacts o n then [Print (reaction o)] else [], Return ()).
Proof. by destruct o. Qed.

Lemma times_updated_set self σ n o :
  _state σ !! self = Some n →
  times_updated o (notify self σ).1 =
    length (filter (λ o', o' = o) (_observers σ)).
Proof.
  intros Hst. destruct (notify_set self σ n Hst) as [_ Hu].
  unfold times_updated. rewrite Hu. apply filter_fst_pair.
Qed.

(** Attaching an observer that is not in the list and detaching it again
    gives the store back; when it was in the list already, [detach] takes
    the earlier occurrence and the new one stays at the end. *)
Theorem attach_then_detach s1 s2 o σ :
  (o ∉ _observers σ →
     detach s2 o (attach s1 o σ).2 =
       ([Print "Subject: Detached an observer."], Return (), σ)) ∧
  (∀ l1 l2,
     _observers σ = l1 ++ o :: l2 → o ∉ l1 →
     ((detach s2 o (attach s1 o σ).2).1).2 = Return () ∧
     _observers (detach s2 o (attach s1 o σ).2).2 = l1 ++ l2 ++ [o]).
Proof.
  split.
  - intros Hno. unfold detach, attach. simpl.
    rewrite (remove_first o (_observers σ) [] Hno), app_nil_r.
    by destruct σ.
  - intros l1 l2 Hl Hno. unfold detach, attach. simpl.
    rewrite Hl, <- app_assoc. simpl.
    by rewrite (remove_first o l1 (l2 ++ [o]) Hno).
Qed.

Lemma attach_then_detach_witness :
  detach 0 (ConcreteObserverB 2)
    (attach 0 (ConcreteObserverB 2) twice_attached).2 =
    ([Print "Subject: Detached an observer."], Return (), twice_attached) ∧
  _observers (detach 0 (ConcreteObserverA 1)
                (attach 0 (ConcreteObserverA 1) twice_attached).2).2 =
    [ConcreteObserverA 1; ConcreteObserverA 1].
Proof.
  destruct (attach_then_detach 0 0 (ConcreteObserverB 2) twice_attached)
    as [Hnew _].
  destruct (attach_then_detach 0 0 (ConcreteObserverA 1) twice_attached)
    as [_ Hold].
  split.
  - apply Hnew. simpl.
    apply not_elem_of_cons; split; [discriminate|].
    apply not_elem_of_cons; split; [discriminate|]. apply not_elem_of_nil.
  - apply (Hold [] [ConcreteObserverA 1]); [reflexivity|].
    apply not_elem_of_nil.
Defined.

(** A [detach] that returns takes exactly one item out: the list before is
    a permutation of the observer and the list after, and the remaining
    observers keep their order; the instance attributes are untouched. *)
Theorem detach_takes_one_out self o σ :
  ((detach self o σ).1).2 = Return () →
  _observers σ ≡ₚ o :: _observers (detach self o σ).2 ∧
  _observers (detach self o σ).2 `sublist_of` _observers σ ∧
  length (_observers σ) = S (length (_observers (detach self o σ).2)) ∧
  _state (detach self o σ).2 = _state σ.
Proof.
  unfold detach. destruct (remove o (_observers σ)) as [l'|] eqn:Hrm; [|done].
  intros _. simpl.
  destruct (remove_present _ _ _ Hrm) as (l1 & l2 & Hl & _ & ->).
  rewrite Hl. split_and!; [| | |done].
  - by rewrite Permutation_middle.
  - apply sublist_app; [done|]. by apply sublist_cons.
  - rewrite !length_app. simpl. lia.
Qed.

Lemma detach_takes_one_out_witness :
  _observers a_then_b ≡ₚ
    ConcreteObserverA 1 ::
      _observers (detach 1 (ConcreteObserverA 1) a_then_b).2 ∧
  _observers (detach 1 (ConcreteObserverA 1) a_then_b).2
    `sublist_of` _observers a_then_b ∧
  length (_observers a_then_b) =
    S (length (_observers (detach 1 (ConcreteObserverA 1) a_then_b).2)) ∧
  _state (detach 1 (ConcreteObserverA 1) a_then_b).2 = _state a_then_b.
Proof.
  apply (detach_takes_one_out 1 (ConcreteObserverA 1) a_then_b).
  reflexivity.
Defined.

(** After a [detach] that returns, a subject whose [_state] is set calls
    [update] on that observer one time less than before, and on every other
    observer as many times as before. *)
Theorem detach_stops_one_update self s o σ n :
  ((detach self o σ).1).2 = Return () →
  _state σ !! s = Some n →
  S (times_updated o (notify s (detach self o σ).2).1) =
    times_updated o (notify s σ).1 ∧
  ∀ o', o' ≠ o →
    times_updated o' (notify s (detach self o σ).2).1 =
    times_updated o' (notify s σ).1.
Proof.
  intros Hret Hst.
  assert (∃ l1 l2, _observers σ = l1 ++ o :: l2 ∧
                   _observers (detach self o σ).2 = l1 ++ l2 ∧
                   _state (detach self o σ).2 = _state σ)
    as (l1 & l2 & Hl & Hl' & Hsame).
  { unfold detach in Hret |- *.
    destruct (remove o (_observers σ)) as [l'|] eqn:Hrm; [|done].
    destruct (remove_present _ _ _ Hrm) as (l1 & l2 & Hl & _ & ->).
    by exists l1, l2. }
  assert (_state (detach self o σ).2 !! s = Some n) as Hst'
    by (by rewrite Hsame).
  split.
  - rewrite (times_updated_set _ _ n _ Hst'), (times_updated_set _ _ n _ Hst).
    rewrite Hl, Hl', !filter_app, filter_cons, decide_True by done.
    rewrite !length_app. simpl. lia.
  - intros o' Hne.
    rewrite (times_updated_set _ _ n _ Hst'), (times_updated_set _ _ n _ Hst).
    rewrite Hl, Hl', !filter_app, filter_cons, decide_False by done.
    done.
Qed.

Lemma detach_stops_one_update_witness :
  S (times_updated (ConcreteObserverA 1)
       (notify 0 (detach 0 (ConcreteObserverA 1) twice_attached).2).1) =
    times_updated (ConcreteObserverA 1) (notify 0 twice_attached).1 ∧
  ∀ o', o' ≠ ConcreteObserverA 1 →
    times_updated o'
      (notify 0 (detach 0 (ConcreteObserverA 1) twice_attached).2).1 =
    times_updated o' (notify 0 twice_attached).1.
Proof.
  apply (detach_stops_one_update 0 0 (ConcreteObserverA 1) twice_attached 0%Z);
    reflexivity.
Defined.

(** On a subject that never assigned [_state], [notify] returns only when
    no observer is attached; otherwise it calls [update] on the first
    observer alone and raises [TypeError]. *)
Theorem notify_on_unset_state self σ :
  _state σ !! self = None →
  (_observers σ = [] →
     notify self σ = ([Print "Subject: Notifying observers..."], Return ())) ∧
  (∀ o l,
     _observers σ = o :: l →
     notify self σ =
       ([Print "Subject: Notifying observers..."; Update o self],
        Raise TypeError)).
Proof.
  intros Hst. unfold notify. rewrite Hst. split.
  - by intros ->.
  - intros o l ->. by rewrite notify_loop_unset.
Qed.

Lemma notify_on_unset_state_witness :
  notify 2 empty = ([Print "Subject: Notifying observers..."], Return ()) ∧
  notify 2 a_then_b =
    ([Print "Subject: Notifying observers...";
      Update (ConcreteObserverA 1) 2], Raise TypeError).
Proof.
  destruct (notify_on_unset_state 2 empty eq_refl) as [Hnone _].
  destruct (notify_on_unset_state 2 a_then_b eq_refl) as [_ Hsome].
  split; [by apply Hnone|]. by apply (Hsome _ [ConcreteObserverB 2]).
Defined.

(** [some_business_logic] never raises, whatever [_state] was: it calls
    [update] once per entry of the list, in order; it assigns [_state] of
    its own subject only and leaves the observer list as it was. *)
Theorem some_business_logic_effect self r σ :
  ((some_business_logic self r σ).1).2 = Return () ∧
  updates ((some_business_logic self r σ).1).1 =
    (λ o, (o, self)) <$> _observers σ ∧
  _observers (some_business_logic self r σ).2 = _observers σ ∧
  _state (some_business_logic self r σ).2 !! self = Some r ∧
  ∀ s, s ≠ self →
    _state (some_business_logic self r σ).2 !! s = _state σ !! s.
Proof.
  destruct (some_business_logic_notifies_all self r σ) as [Hr Hu].
  split_and!; [done|done| | |].
  all: unfold some_business_logic; destruct (notify self _) as [out res];
    simpl.
  - done.
  - apply lookup_insert_eq.
  - intros s Hne. by apply lookup_insert_ne.
Qed.

Lemma prints_app out1 out2 : prints (out1 ++ out2) = prints out1 ++ prints out2.
Proof. apply omap_app. Qed.

Lemma notify_loop_prints self n l :
  prints (notify_loop self (Some n) l).1 =
    reaction <$> filter (λ o, reacts o n = true) l.
Proof.
  induction l as [|o l IH]; [done|]. simpl.
  rewrite update_set_prints.
  destruct (notify_loop self (Some n) l) as [out' r']. simpl in *.
  rewrite prints_app, IH, filter_cons.
  case_decide as Hre.
  - by rewrite Hre.
  - apply not_true_is_false in Hre. by rewrite Hre.
Qed.

(** What [notify] prints on a subject whose [_state] is [n]: its heading,
    then the reactions of the observers that react to [n], in the order of
    the list.  A reacts below 3, B at 0 and from 2 on, so at least one of
    the two reacts to any [n], and both only to 0 and 2. *)
Theorem notify_prints_the_reactions self σ n :
  _state σ !! self = Some n →
  prints (notify self σ).1 =
    "Subject: Notifying observers..." ::
      (reaction <$> filter (λ o, reacts o n = true) (_observers σ)) ∧
  (∀ a b,
     reacts (ConcreteObserverA a) n || reacts (ConcreteObserverB b) n = true ∧
     (reacts (ConcreteObserverA a) n && reacts (ConcreteObserverB b) n = true
      ↔ n = 0%Z ∨ n = 2%Z)).
Proof.
  intros Hst. split.
  - unfold notify. rewrite Hst.
    pose proof (notify_loop_prints self n (_observers σ)) as Hp.
    destruct (notify_loop self (Some n) (_observers σ)) as [out r].
    simpl in *. by rewrite Hp.
  - intros a b. unfold reacts. split.
    + destruct (n <? 3)%Z eqn:H3; [done|]. simpl.
      apply orb_true_iff. right. lia.
    + rewrite andb_true_iff, orb_true_iff. lia.
Qed.

Lemma notify_prints_the_reactions_witness :
  prints (notify 0 twice_attached).1 =
    ["Subject: Notifying observers...";
     "ConcreteObserverA: Reacted to the event";
     "ConcreteObserverA: Reacted to the event"].
Proof.
  destruct (notify_prints_the_reactions 0 twice_attached 0%Z eq_refl)
    as [Hp _].
  rewrite Hp. reflexivity.
Defined.

Lemma notify_prints self σ n :
  _state σ !! self = Some n →
  prints (notify self σ).1 =
    "Subject: Notifying observers..." ::
      (reaction <$> filter (λ o, reacts o n = true) (_observers σ)).
Proof.
  intros Hst. unfold notify. rewrite Hst.
  pose proof (notify_loop_prints self n (_observers σ)) as Hp.
  destruct (notify_loop self (Some n) (_observers σ)) as [out r].
  simpl in *. by rewrite Hp.
Qed.

Lemma some_business_logic_run self r σ :
  ∃ out,
    some_business_logic self r σ =
      (out, Return (), State (_observers σ) (<[self := r]> (_state σ))) ∧
    updates out = (λ o, (o, self)) <$> _observers σ ∧
    prints out = round_output r (_observers σ).
Proof.
  unfold some_business_logic.
  set (σ' := State (_observers σ) (<[self := r]> (_state σ))).
  assert (_state σ' !! self = Some r) as Hst by apply lookup_insert_eq.
  destruct (notify_set self σ' r Hst) as [Hr Hu].
  pose proof (notify_prints self σ' r Hst) as Hp.
  destruct (notify self σ') as [out res]. simpl in *. subst res.
  eexists. split; [reflexivity|]. split; [done|].
  simpl. by rewrite Hp.
Qed.

(** The client code never raises, whatever values are drawn.  The two
    observers are updated in the order A, B in the first two rounds and B
    alone, after A is detached, in the third; and the program prints the two
    attachments, the rounds and the detachment as [round_output] gives
    them. *)
Theorem main_output r1 r2 r3 :
  (main r1 r2 r3).2 = Return () ∧
  updates (main r1 r2 r3).1 =
    [(ConcreteObserverA 1, 0); (ConcreteObserverB 2, 0);
     (ConcreteObserverA 1, 0); (ConcreteObserverB 2, 0);
     (ConcreteObserverB 2, 0)] ∧
  prints (main r1 r2 r3).1 =
    ["Subject: Attached an observer."; "Subject: Attached an observer."] ++
    round_output r1 [ConcreteObserverA 1; ConcreteObserverB 2] ++
    round_output r2 [ConcreteObserverA 1; ConcreteObserverB 2] ++
    ["Subject: Detached an observer."] ++
    round_output r3 [ConcreteObserverB 2].
Proof.
  unfold main. cbv [attach]. cbn [_observers _state empty app].
  destruct (some_business_logic_run 0 r1
              (State [ConcreteObserverA 1; ConcreteObserverB 2] ∅))
    as (out3 & -> & Hu3 & Hp3).
  cbn [_observers _state] in *.
  destruct (some_business_logic_run 0 r2
              (State [ConcreteObserverA 1; ConcreteObserverB 2]
                 (<[0%nat := r1]> ∅)))
    as (out4 & -> & Hu4 & Hp4).
  cbn [_observers _state] in *.
  assert (detach 0 (ConcreteObserverA 1)
            (State [ConcreteObserverA 1; ConcreteObserverB 2]
               (<[0%nat := r2]> (<[0%nat := r1]> ∅))) =
          ([Print "Subject: Detached an observer."], Return (),
           State [ConcreteObserverB 2] (<[0%nat := r2]> (<[0%nat := r1]> ∅))))
    as -> by reflexivity.
  destruct (some_business_logic_run 0 r3
              (State [ConcreteObserverB 2]
                 (<[0%nat := r2]> (<[0%nat := r1]> ∅))))
    as (out6 & -> & Hu6 & Hp6).
  cbn [_observers _state] in *.
  split; [done|]. cbn [fst snd].
  unfold updates, prints in *. cbn [omap list_omap].
  rewrite !omap_app, Hu3, Hu4, Hu6, Hp3, Hp4, Hp6.
  split; reflexivity.
Qed.

(** With the draws 9, 0, 0 the program prints what the notebook
    records. *)
Lemma main_output_witness :
  (main 9 0 0).2 = Return () ∧
  prints (main 9 0 0).1 =
    ["Subject: Attached an observer.";
     "Subject: Attached an observer.";
     "
Subject: I'm doing something important.";
     "Subject: My state has just changed to: 9";
     "Subject: Notifying observers...";
     "ConcreteObserverB: Reacted to the event";
     "
Subject: I'm doing something important.";
     "Subject: My state has just changed to: 0";
     "Subject: Notifying observers...";
     "ConcreteObserverA: Reacted to the event";
     "ConcreteObserverB: Reacted to the event";
     "Subject: Detached an observer.";
     "
Subject: I'm doing something important.";
     "Subject: My state has just changed to: 0";
     "Subject: Notifying observers...";
     "ConcreteObserverB: Reacted to the event"].
Proof.
  destruct (main_output 9 0 0) as (Hr & _ & Hp).
  split; [exact Hr|]. rewrite Hp. reflexivity.
Defined.

End Subject.

(** ** The registry, many callers at once *)

Section Threads.

Import SingletonMeta.

Context {Args Obj : Type}.
Variable type_call : string → Args → exn + Obj.

Local Abbreviation thread_step := (thread_step type_call).
Local Abbreviation sched_step := (sched_step type_call).
Local Abbreviation run := (run type_call).
Local Abbreviation pcs_inv := (pcs_inv type_call).
Local Abbreviation pc_ok := (pc_ok type_call).

Implicit Types (c : config Args Obj) (th : thread Args) (σ : state Obj)
  (cs : list (string * Args)).

Lemma lookup_goto t t' th p (ths : list (thread Args)) :
  ths !! t = Some th →
  goto t th p ths !! t' =
    if decide (t' = t) then Some (Thread (th_self th) (th_args th) p)
    else ths !! t'.
Proof.
  intros Hth. unfold goto. destruct (decide (t' = t)) as [->|Hne].
  - by rewrite list_lookup_insert_eq by (by eapply lookup_lt_Some).
  - by rewrite list_lookup_insert_ne by done.
Qed.

(** Case analysis on the statement a thread runs. *)
Ltac step_inv H :=
  unfold SingletonMeta.thread_step in H;
  match type of H with
  | context [threads ?c !! ?t] =>
      let Hth := fresh "Hth" in
      let p := fresh "p" in
      destruct (threads c !! t) as [[? ? p]|] eqn:Hth;
      [|discriminate H];
      simpl in H; destruct p; repeat case_match; simplify_eq
  end.

(** Which thread a lookup after the step finds: the one that moved, or
    another, unchanged. *)
Ltac goto_cases Hth H :=
  rewrite (lookup_goto _ _ _ _ _ Hth) in H;
  let Hne := fresh "Hne" in
  destruct (decide (_ = _)) as [->|Hne] in H; simplify_eq.

Lemma step_lock_inv t c c' :
  lock_inv c → thread_step t c = Some c' → lock_inv c'.
Proof.
  intros [Hown Hreal] Hstep.
  step_inv Hstep.
  all: pose proof (Hown _ _ Hth) as Hme; simpl in Hme.
  all: split; simpl.
  all: try (intros t' th' Hlk; goto_cases Hth Hlk;
            [ simpl; intuition congruence
            | specialize (Hown _ _ Hlk); intuition congruence ]).
  all: intros t' Ht'; rewrite (lookup_goto _ _ _ _ _ Hth); case_decide;
    [done|]; first [ by apply Hreal | congruence ].
Qed.

Lemma step_pcs_inv t c c' :
  lock_inv c → pcs_inv c → thread_step t c = Some c' → pcs_inv c'.
Proof.
  intros [Hown Hreal] Hpcs Hstep.
  step_inv Hstep.
  all: pose proof (Hown _ _ Hth) as Hme; simpl in Hme.
  all: pose proof (Hpcs _ _ Hth) as Hpc;
    unfold SingletonMeta.pc_ok in Hpc; simpl in Hpc.
  all: intros t' th' Hlk; simpl in *; goto_cases Hth Hlk.
  all: unfold SingletonMeta.pc_ok; simpl.
  all: try done.
  all: try (by apply (Hpcs _ _ Hlk)).
  - rewrite lookup_insert_eq. by eexists.
  - pose proof (Hown _ _ Hlk) as Hother.
    pose proof (Hpcs _ _ Hlk) as Hpc'. unfold SingletonMeta.pc_ok in Hpc'.
    destruct th' as [self' args' [| | | | |r|[i|e]]]; simpl in *;
      try done; try (exfalso; intuition congruence).
    rewrite lookup_insert_ne; [done | congruence].
  - unfold return_stored. destruct Hpc as [i Hi]. by rewrite Hi.
Qed.

Lemma events_of_snoc t l (e : entry) :
  events_of t (l ++ [e]) =
    events_of t l ++ (if decide (e_thread e = t) then [e_event e] else []).
Proof.
  unfold events_of. rewrite filter_app, map_app. f_equal.
  rewrite filter_cons, filter_nil. by case_decide.
Qed.

Lemma step_trace_inv t c c' :
  lock_inv c → pcs_inv c → trace_inv c → thread_step t c = Some c' → trace_inv c'.
Proof.
  intros [Hown Hreal] Hpcs Htr Hstep.
  step_inv Hstep.
  all: pose proof (Hown _ _ Hth) as Hme; simpl in Hme.
  all: pose proof (Hpcs _ _ Hth) as Hpc;
    unfold SingletonMeta.pc_ok in Hpc; simpl in Hpc.
  all: pose proof (Htr _ _ Hth) as Hmine;
    unfold trace_at in Hmine; simpl in Hmine.
  all: intros t' th' Hlk; simpl in *; goto_cases Hth Hlk.
  all: rewrite events_of_snoc; simpl; case_decide; try done.
  all: unfold trace_at; simpl.
  all: try (by rewrite Hmine).
  all: try (rewrite app_nil_r; by apply (Htr _ _ Hlk)).
  - left. by rewrite Hmine.
  - right. exists instance. by rewrite Hmine, lookup_insert_eq.
  - pose proof (Hown _ _ Hlk) as Hother.
    pose proof (Htr _ _ Hlk) as Htheirs. unfold trace_at in Htheirs.
    rewrite app_nil_r.
    destruct th' as [self' args' [| | | | |r|[i|e]]]; simpl in *;
      try done; exfalso; intuition congruence.
  - unfold return_stored.
    destruct Hmine as [Hhit|(i & Hmiss & Hi)].
    + destruct Hpc as [i Hi]. rewrite Hi, Hhit. by left.
    + rewrite Hi, Hmiss. by right.
  - destruct r as [i|e].
    + destruct Hmine as [Hhit|Hmiss]; [left|right]; by rewrite ?Hhit, ?Hmiss.
    + by rewrite Hmine.
Qed.

Lemma step_log_inv t c c' :
  lock_inv c → log_inv c → thread_step t c = Some c' → log_inv c'.
Proof.
  intros [Hown Hreal] Hlog Hstep.
  step_inv Hstep.
  all: pose proof (Hown _ _ Hth) as Hme; simpl in Hme.
  all: intros en He; simpl in He; apply elem_of_app in He as [He|He];
    [by apply Hlog|].
  all: apply list_elem_of_singleton in He as ->; unfold entry_ok; simpl.
  all: first [ done | by apply Hme ].
Qed.

Lemma constructions_snoc self (l : list entry) e c :
  log c = l ++ [e] →
  constructions self c =
    length (filter (λ e, is_construction self e = true) l) +
    (if is_construction self e then 1 else 0).
Proof.
  intros Hl. unfold constructions. rewrite Hl, filter_app, length_app.
  f_equal. rewrite filter_cons, filter_nil.
  by destruct (is_construction self e); case_decide.
Qed.

Lemma lookup_goto_self t th p (ths : list (thread Args)) :
  ths !! t = Some th →
  goto t th p ths !! t = Some (Thread (th_self th) (th_args th) p).
Proof. intros Hth. rewrite (lookup_goto _ _ _ _ _ Hth). by rewrite decide_True. Qed.




(** The class and the arguments of a call never change. *)
Lemma step_callers t c c' : thread_step t c = Some c' → callers c' = callers c.
Proof.
  intros Hstep. unfold callers.
  step_inv Hstep; simpl; unfold goto.
  all: rewrite list_fmap_insert; simpl; apply list_insert_id.
  all: by rewrite list_lookup_fmap, Hth.
Qed.





Lemma run_ind (P : config Args Obj → Prop) :
  (∀ t c c', P c → thread_step t c = Some c' → P c') →
  ∀ sched c, P c → P (run sched c).
Proof.
  intros Hstep sched. induction sched as [|t sched IH]; intros c Hc; [done|].
  simpl. apply IH. unfold SingletonMeta.sched_step.
  destruct (thread_step t c) as [c'|] eqn:Hc'; simpl; eauto.
Qed.

Lemma step_reachable_inv t c c' :
  reachable_inv type_call c → thread_step t c = Some c' →
  reachable_inv type_call c'.
Proof.
  intros (Hlock & Hpcs & Htr & Hlog) Hstep.
  split_and!; eauto using step_lock_inv, step_pcs_inv, step_trace_inv,
    step_log_inv.
Qed.

Lemma lookup_spawn cs σ t th :
  threads (spawn cs σ) !! t = Some th → th_pc th = PcStart.
Proof.
  unfold spawn. simpl. rewrite list_lookup_fmap.
  destruct (cs !! t); intros [= <-]; done.
Qed.

Lemma spawn_reachable_inv cs σ : reachable_inv type_call (spawn cs σ).
Proof.
  split_and!.
  - split; [|done]. intros t th Hth. rewrite (lookup_spawn _ _ _ _ Hth).
    done.
  - intros t th Hth. unfold SingletonMeta.pc_ok.
    by rewrite (lookup_spawn _ _ _ _ Hth).
  - intros t th Hth. unfold trace_at.
    by rewrite (lookup_spawn _ _ _ _ Hth).
  - intros e He. by apply elem_of_nil in He.
Qed.

Lemma run_reachable_inv sched cs σ :
  reachable_inv type_call (run sched (spawn cs σ)).
Proof.
  apply (run_ind (reachable_inv type_call)); [|apply spawn_reachable_inv].
  intros t c c' Hc Hstep. by eapply step_reachable_inv.
Qed.


Lemma callers_spawn cs σ : callers (spawn cs σ) = cs.
Proof.
  unfold callers, spawn. simpl. rewrite map_map. simpl.
  induction cs as [|[self args] cs IH]; [done|]. simpl. by rewrite IH.
Qed.

Lemma run_callers sched cs σ : callers (run sched (spawn cs σ)) = cs.
Proof.
  apply (run_ind (λ c : config Args Obj, callers c = cs)); [|apply callers_spawn].
  intros t c c' Hc Hstep. by rewrite (step_callers _ _ _ Hstep).
Qed.




Lemma outcome_done t c r :
  outcome t c = Some r ↔
  ∃ th, threads c !! t = Some th ∧ th_pc th = PcDone r.
Proof.
  unfold outcome. split.
  - destruct (threads c !! t) as [[self args []]|]; try done.
    intros [= ->]. by eexists.
  - intros ([self args p] & -> & Hp). simpl in Hp. by subst p.
Qed.

Lemma lookup_callers c t th :
  threads c !! t = Some th → callers c !! t = Some (th_self th, th_args th).
Proof. intros Hth. unfold callers. by rewrite list_lookup_fmap, Hth. Qed.

Lemma caller_of_same_class self (argss : list Args) c t th :
  callers c = map (pair self) argss →
  threads c !! t = Some th →
  th_self th = self ∧ th_args th ∈ argss.
Proof.
  intros Hcs Hth. apply lookup_callers in Hth. rewrite Hcs in Hth.
  rewrite list_lookup_fmap in Hth.
  destruct (argss !! t) as [args|] eqn:Ht; simplify_eq/=.
  split; [done|]. by eapply list_elem_of_lookup_2.
Qed.

Lemma all_done_lookup c t th :
  all_done c = true → threads c !! t = Some th → ∃ r, th_pc th = PcDone r.
Proof.
  intros Hall Hth. unfold all_done in Hall.
  rewrite forallb_forall in Hall.
  apply list_elem_of_lookup_2, list_elem_of_In, Hall in Hth.
  destruct th as [self args []]; try done. by eexists.
Qed.




(** A thread alone runs the method as [__call__] describes it. *)
Lemma solo_run_is_call self args σ :
  let c := run [0; 0; 0; 0; 0; 0] (spawn [(self, args)] σ) in
  outcome 0 c = Some (__call__ type_call self args σ).1 ∧
  store c = (__call__ type_call self args σ).2 ∧
  _lock c = None.
Proof.
  unfold SingletonMeta.__call__, return_stored.
  destruct (_instances σ !! self) as [i|] eqn:Hi.
  - cbn. rewrite Hi. cbn. unfold return_stored. rewrite Hi. cbn. done.
  - destruct (type_call self args) as [e|o] eqn:Hnew.
    + cbn. rewrite Hi. cbn. rewrite Hnew. cbn. done.
    + cbn. rewrite Hi. cbn. rewrite Hnew. cbn. unfold return_stored. cbn.
      rewrite lookup_insert_eq. cbn. done.
Qed.




(** *** More on the threads *)

Lemma step_heap_mono t c c' :
  thread_step t c = Some c' → heap (store c) `prefix_of` heap (store c').
Proof.
  intros Hstep. step_inv Hstep; simpl; try done. by eexists.
Qed.

Lemma step_keeps_entries t c c' k i :
  pcs_inv c → thread_step t c = Some c' →
  _instances (store c) !! k = Some i → _instances (store c') !! k = Some i.
Proof.
  intros Hpcs Hstep Hk. step_inv Hstep; simpl; try done.
  specialize (Hpcs _ _ Hth). unfold SingletonMeta.pc_ok in Hpcs.
  simpl in Hpcs. rewrite lookup_insert_ne; [done|congruence].
Qed.

Lemma lookup_callers_inv c t self args :
  callers c !! t = Some (self, args) →
  ∃ th, threads c !! t = Some th ∧ th_self th = self ∧ th_args th = args.
Proof.
  unfold callers. rewrite list_lookup_fmap.
  destruct (threads c !! t) as [th|]; [|done].
  intros [= <- <-]. by exists th.
Qed.

Lemma step_made_by self t c c' i :
  thread_step t c = Some c' → made_by type_call self c i →
  made_by type_call self c' i.
Proof.
  intros Hstep (t0 & th0 & o & Hth0 & Hself & Hnew & Hheap).
  pose proof (lookup_callers _ _ _ Hth0) as Hcl.
  rewrite <- (step_callers _ _ _ Hstep) in Hcl.
  apply lookup_callers_inv in Hcl as (th0' & Hth0' & Hself' & Hargs').
  exists t0, th0', o. split_and!; [done|congruence|congruence|].
  by eapply prefix_lookup_Some, step_heap_mono.
Qed.

Lemma step_origin_inv self t c c' :
  origin_inv type_call self c → thread_step t c = Some c' →
  origin_inv type_call self c'.
Proof.
  intros [Hentry Hpend] Hstep.
  assert (∀ i, made_by type_call self c i → made_by type_call self c' i)
    as Hmono by eauto using step_made_by.
  step_inv Hstep; split; simpl.
  all: try (by intros i Hi; apply Hmono, Hentry).
  all: try (intros t' th' i Hlk Hself' Hpc; goto_cases Hth Hlk;
            apply Hmono; eapply Hpend; eauto; fail).
  - intros t' th' i Hlk Hself' Hpc. goto_cases Hth Hlk.
    + eexists t, _, _. split_and!; [by apply lookup_goto_self|done|done|].
      simpl in *. injection Hpc as <-.
      rewrite lookup_app_r by done. by rewrite Nat.sub_diag.
    + apply Hmono. eapply Hpend; eauto.
  - intros i. destruct (decide (th_self0 = self)) as [->|Hne].
    + rewrite lookup_insert_eq. intros [= <-].
      apply Hmono. eapply Hpend; eauto.
    + rewrite lookup_insert_ne by done. intros Hi. by apply Hmono, Hentry.
Qed.

Lemma run_origin_inv self sched cs σ :
  _instances σ !! self = None →
  origin_inv type_call self (run sched (spawn cs σ)).
Proof.
  intros Hnone.
  apply (run_ind (origin_inv type_call self)).
  - intros t c c' Hc Hstep. by eapply step_origin_inv.
  - split.
    + simpl. by rewrite Hnone.
    + intros t th i Hth _ Hpc. by rewrite (lookup_spawn _ _ _ _ Hth) in Hpc.
Qed.

Lemma returned_is_stored c t th i :
  pcs_inv c → threads c !! t = Some th → th_pc th = PcDone (Return i) →
  _instances (store c) !! th_self th = Some i.
Proof.
  intros Hpcs Hth Hpc. specialize (Hpcs _ _ Hth).
  unfold SingletonMeta.pc_ok in Hpcs. by rewrite Hpc in Hpcs.
Qed.

(** Under any schedule the dict keeps every entry it had at the start, and
    the heap keeps every object at its reference. *)
Theorem run_keeps_entries_and_objects sched cs σ :
  let c := run sched (spawn cs σ) in
  heap σ `prefix_of` heap (store c) ∧
  ∀ k i, _instances σ !! k = Some i → _instances (store c) !! k = Some i.
Proof.
  apply (run_ind (λ c : config Args Obj,
                    reachable_inv type_call c ∧
                    heap σ `prefix_of` heap (store c) ∧
                    ∀ k i, _instances σ !! k = Some i →
                           _instances (store c) !! k = Some i)).
  - intros t c c' (Hreach & Hpre & Hkeep) Hstep.
    split_and!.
    + by eapply step_reachable_inv.
    + etrans; [done|]. by eapply step_heap_mono.
    + intros k i Hk. destruct Hreach as (_ & Hpcs & _).
      eapply step_keeps_entries; eauto.
  - split_and!; [apply spawn_reachable_inv|done|done].
Qed.

(** The lock does not leak: whoever holds it is a thread inside the [with]
    block, and once every call is over, returned or raised, the lock is
    free. *)
Theorem lock_is_released sched cs σ :
  let c := run sched (spawn cs σ) in
  (∀ t, _lock c = Some t →
        ∃ th, threads c !! t = Some th ∧ in_critical (th_pc th) = true) ∧
  (all_done c = true → _lock c = None).
Proof.
  intros c.
  pose proof (run_reachable_inv sched cs σ) as ([Hown Hreal] & _).
  fold c in Hown, Hreal.
  assert (∀ t, _lock c = Some t →
               ∃ th, threads c !! t = Some th ∧
                     in_critical (th_pc th) = true) as Hheld.
  { intros t Hl. destruct (Hreal _ Hl) as [th Hth].
    exists th. split; [done|]. by apply (Hown _ _ Hth). }
  split; [done|].
  intros Hall. destruct (_lock c) as [t|] eqn:Hl; [|done].
  destruct (Hheld t eq_refl) as (th & Hth & Hcrit).
  destruct (all_done_lookup _ _ _ Hall Hth) as [r Hr].
  by rewrite Hr in Hcrit.
Qed.

(** Under any schedule a call raises only the exception that the
    construction from its own arguments raises: the lookup of the [return]
    statement never fails, and no call sees the failure of another. *)
Theorem threads_raise_only_from_construction sched cs σ t e :
  outcome t (run sched (spawn cs σ)) = Some (Raise e) →
  ∃ self args, cs !! t = Some (self, args) ∧ type_call self args = inl e.
Proof.
  intros (th & Hth & Hpc)%outcome_done.
  pose proof (run_reachable_inv sched cs σ) as (_ & Hpcs & _).
  specialize (Hpcs _ _ Hth). unfold SingletonMeta.pc_ok in Hpcs.
  rewrite Hpc in Hpcs.
  exists (th_self th), (th_args th). split; [|done].
  apply lookup_callers in Hth. by rewrite run_callers in Hth.
Qed.

(** Threads calling a class that has its instance already, under any
    schedule: nothing is constructed for that class, its entry stays, and
    every such call that is over returned the stored instance. *)
Theorem initialised_class_is_never_constructed self i sched cs σ :
  _instances σ !! self = Some i →
  let c := run sched (spawn cs σ) in
  constructions self c = 0 ∧
  _instances (store c) !! self = Some i ∧
  ∀ t args r,
    cs !! t = Some (self, args) → outcome t c = Some r → r = Return i.
Proof.
  intros Hi c.
  assert (reachable_inv type_call c ∧
          _instances (store c) !! self = Some i ∧
          constructions self c = 0 ∧
          ∀ t th, threads c !! t = Some th → th_self th = self →
                  hit_only (th_pc th) = true) as (Hreach & Hkeep & Hcnt & Hhit).
  { apply (run_ind (λ c : config Args Obj,
                      reachable_inv type_call c ∧
                      _instances (store c) !! self = Some i ∧
                      constructions self c = 0 ∧
                      ∀ t th, threads c !! t = Some th → th_self th = self →
                              hit_only (th_pc th) = true)).
    - clear c. intros t c c' (Hreach & Hkeep & Hcnt & Hhit) Hstep.
      pose proof (step_reachable_inv _ _ _ Hreach Hstep) as Hreach'.
      destruct Hreach as (_ & Hpcs & _).
      pose proof (step_keeps_entries _ _ _ _ _ Hpcs Hstep Hkeep) as Hkeep'.
      split_and!; [done|done| |].
      + step_inv Hstep.
        all: erewrite constructions_snoc by reflexivity.
        all: fold (constructions self c); rewrite Hcnt.
        all: unfold is_construction; simpl; try done.
        case_bool_decide as Hself; [|done].
        by specialize (Hhit _ _ Hth Hself).
      + step_inv Hstep.
        all: intros t' th' Hlk Hself; simpl in Hlk; goto_cases Hth Hlk.
        all: try (by eapply Hhit).
        all: try (by specialize (Hhit _ _ Hth eq_refl)).
        all: simpl in *; try done; try congruence.
        unfold return_stored. by rewrite Hkeep.
    - split_and!; [apply spawn_reachable_inv|done|done|].
      intros t th Hth _. by rewrite (lookup_spawn _ _ _ _ Hth). }
  split_and!; [done|done|].
  intros t args r Hcs (th & Hth & Hpc)%outcome_done.
  pose proof (lookup_callers _ _ _ Hth) as Hcl.
  unfold c in Hcl. rewrite run_callers, Hcs in Hcl.
  injection Hcl as Hself Hargs. symmetry in Hself.
  specialize (Hhit _ _ Hth Hself). rewrite Hpc in Hhit.
  destruct r as [j|e]; [|done].
  destruct Hreach as (_ & Hpcs & _).
  pose proof (returned_is_stored _ _ _ _ Hpcs Hth Hpc) as Hj.
  rewrite Hself, Hkeep in Hj. congruence.
Qed.

(** Threads that all call a class with no instance yet, under any
    schedule: the instance a call returns is an object built from the
    arguments of one of the calls. *)
Theorem returned_instance_was_built_by_a_caller self
    (argss : list Args) σ sched t i :
  _instances σ !! self = None →
  outcome t (run sched (spawn (map (pair self) argss) σ)) = Some (Return i) →
  ∃ args o,
    args ∈ argss ∧ type_call self args = inr o ∧
    heap (store (run sched (spawn (map (pair self) argss) σ))) !! i = Some o.
Proof.
  intros Hnone (th & Hth & Hpc)%outcome_done.
  pose proof (run_reachable_inv sched (map (pair self) argss) σ)
    as (_ & Hpcs & _).
  pose proof (run_origin_inv self sched (map (pair self) argss) σ Hnone)
    as [Hentry _].
  pose proof (run_callers sched (map (pair self) argss) σ) as Hcs.
  destruct (caller_of_same_class _ _ _ _ _ Hcs Hth) as [Hself _].
  pose proof (returned_is_stored _ _ _ _ Hpcs Hth Hpc) as Hi.
  rewrite Hself in Hi.
  destruct (Hentry _ Hi) as (t0 & th0 & o & Hth0 & _ & Hnew & Hheap).
  destruct (caller_of_same_class _ _ _ _ _ Hcs Hth0) as [_ Hargs].
  by exists (th_args th0), o.
Qed.

(** When every call is over and no construction raises, every call has
    returned the instance of the class. *)
Lemma all_done_returns self (argss : list Args) σ sched t :
  let c := run sched (spawn (map (pair self) argss) σ) in
  all_done c = true →
  (∀ args, args ∈ argss → ∃ o, type_call self args = inr o) →
  t < length argss →
  ∃ i, outcome t c = Some (Return i) ∧ _instances (store c) !! self = Some i.
Proof.
  intros c Hall Hok Ht.
  pose proof (run_reachable_inv sched (map (pair self) argss) σ)
    as (_ & Hpcs & _).
  pose proof (run_callers sched (map (pair self) argss) σ) as Hcs.
  fold c in Hpcs, Hcs.
  assert (is_Some (threads c !! t)) as [th Hth].
  { apply lookup_lt_is_Some.
    replace (length (threads c)) with (length (callers c))
      by apply length_map.
    by rewrite Hcs, length_map. }
  destruct (all_done_lookup _ _ _ Hall Hth) as [r Hr].
  destruct (caller_of_same_class _ _ _ _ _ Hcs Hth) as [Hself Hargs].
  destruct r as [i|e].
  - exists i. split; [apply outcome_done; eauto|].
    rewrite <- Hself. by eapply returned_is_stored.
  - specialize (Hpcs _ _ Hth). unfold SingletonMeta.pc_ok in Hpcs.
    rewrite Hr, Hself in Hpcs. destruct (Hok _ Hargs) as [o Ho]. congruence.
Qed.

End Threads.

(** ** The client code of the Singleton notebook *)

Section Client.

Import SingletonMeta.



(** *** More on the client code *)

Lemma type_call_built args o :
  Singleton.type_call "Singleton" args = inr o →
  ∃ value, args = [value] ∧ o = Singleton.Obj value.
Proof.
  unfold Singleton.type_call, Singleton.__init__. simpl.
  destruct args as [|value [|? ?]]; try done.
  intros [= <-]. by exists value.
Qed.

Lemma type_call_succeeds (values : list string) args :
  args ∈ map (λ value, [value]) values →
  ∃ o, Singleton.type_call "Singleton" args = inr o.
Proof.
  intros (value & -> & _)%list_elem_of_fmap. by eexists.
Qed.

Lemma printed_value sched values t v :
  Singleton.printed t (run Singleton.type_call sched (Singleton.clients values))
    = Some v →
  ∃ i, outcome t (run Singleton.type_call sched (Singleton.clients values))
         = Some (Return i) ∧
       heap (store (run Singleton.type_call sched (Singleton.clients values)))
         !! i = Some (Singleton.Obj v).
Proof.
  unfold Singleton.printed, Singleton.some_business_logic.
  destruct (outcome t _) as [[i|e]|]; try done.
  intros ([v'] & Hi & ->)%fmap_Some. by exists i.
Qed.

(** Any number of threads running [test_singleton], each with its value,
    under any schedule: a thread prints one of the values given, all the
    threads that have printed printed the same value, and when all calls
    are over every thread prints that one value.  So the two threads of the
    notebook print ["FOO"] twice or ["BAR"] twice. *)
Theorem clients_print_one_value values sched :
  let c := run Singleton.type_call sched (Singleton.clients values) in
  (∀ t v, Singleton.printed t c = Some v → v ∈ values) ∧
  (∀ t1 t2 v1 v2,
     Singleton.printed t1 c = Some v1 → Singleton.printed t2 c = Some v2 →
     v1 = v2) ∧
  (all_done c = true → values ≠ [] →
   ∃ v, v ∈ values ∧
        ∀ t, t < length values → Singleton.printed t c = Some v).
Proof.
  intros c.
  pose proof (run_reachable_inv Singleton.type_call sched
                (map (pair "Singleton") (map (λ value, [value]) values))
                Singleton.fresh) as (_ & Hpcs & _).
  pose proof (run_callers Singleton.type_call sched
                (map (pair "Singleton") (map (λ value, [value]) values))
                Singleton.fresh) as Hcs.
  assert (Hstored : ∀ t i, outcome t c = Some (Return i) →
                           _instances (store c) !! "Singleton" = Some i).
  { intros t i (th & Hth & Hpc)%outcome_done.
    destruct (caller_of_same_class _ _ _ _ _ Hcs Hth) as [<- _].
    by eapply returned_is_stored. }
  assert (Hvalue : ∀ t i, outcome t c = Some (Return i) →
                          ∃ v, v ∈ values ∧
                               heap (store c) !! i = Some (Singleton.Obj v)).
  { intros t i Hout.
    pose proof (run_origin_inv Singleton.type_call "Singleton" sched
                  (map (pair "Singleton") (map (λ value, [value]) values))
                  Singleton.fresh eq_refl) as [Hentry _].
    destruct (Hentry _ (Hstored _ _ Hout))
      as (t0 & th0 & o & Hth0 & _ & Hnew & Hheap).
    destruct (caller_of_same_class _ _ _ _ _ Hcs Hth0) as [_ Hargs].
    apply type_call_built in Hnew as (v & Hv & ->).
    rewrite Hv in Hargs.
    apply list_elem_of_fmap in Hargs as (v' & [= ->] & Hin).
    by exists v'. }
  split_and!.
  - intros t v (i & Hout & Hheap)%printed_value.
    destruct (Hvalue _ _ Hout) as (v' & Hv' & Hheap').
    fold c in Hheap. congruence.
  - intros t1 t2 v1 v2 (i1 & Hout1 & Hheap1)%printed_value
      (i2 & Hout2 & Hheap2)%printed_value.
    pose proof (Hstored _ _ Hout1). pose proof (Hstored _ _ Hout2).
    fold c in Hheap1, Hheap2. congruence.
  - intros Hall Hne.
    assert (Hret : ∀ t, t < length values →
                        ∃ i, outcome t c = Some (Return i) ∧
                             _instances (store c) !! "Singleton" = Some i).
    { intros t Ht.
      apply (all_done_returns Singleton.type_call "Singleton"
               (map (λ value, [value]) values) Singleton.fresh sched t Hall).
      - apply type_call_succeeds.
      - by rewrite length_map. }
    destruct values as [|value0 values]; [done|].
    destruct (Hret 0) as (i & Hout & Hi); [simpl; lia|].
    destruct (Hvalue _ _ Hout) as (v & Hv & Hheap).
    exists v. split; [done|]. intros t Ht.
    destruct (Hret t Ht) as (j & Hout' & Hj).
    assert (j = i) as -> by congruence.
    unfold Singleton.printed, Singleton.some_business_logic.
    by rewrite Hout', Hheap.
Qed.

Lemma clients_print_one_value_witness :
  ∃ v, v ∈ ["FOO"; "BAR"] ∧
       ∀ t, t < 2 → Singleton.printed t Singleton.race = Some v.
Proof.
  destruct (clients_print_one_value ["FOO"; "BAR"] Singleton.bar_first)
    as (_ & _ & Hover).
  apply Hover; [reflexivity|discriminate].
Defined.

Lemma run_keeps_entries_and_objects_witness :
  _instances
    (store (run Singleton.type_call Singleton.bar_first
              Singleton.late_clients)) !! "Singleton" = Some 0.
Proof.
  destruct (run_keeps_entries_and_objects Singleton.type_call
              Singleton.bar_first
              (map (pair "Singleton") [["BAR"]; ["BAZ"]])
              Singleton.after_foo) as [_ Hkeep].
  apply Hkeep. reflexivity.
Defined.

Lemma lock_is_released_witness : _lock Singleton.race = None.
Proof.
  destruct (lock_is_released Singleton.type_call Singleton.bar_first
              (map (pair "Singleton") [["FOO"]; ["BAR"]]) Singleton.fresh)
    as [_ Hfree].
  apply Hfree. reflexivity.
Defined.

(** Thread 0 calls [Singleton()] and gets [TypeError]; thread 1 then
    builds the instance. *)
Lemma threads_raise_only_from_construction_witness :
  (∃ self args,
     [("Singleton", []); ("Singleton", ["BAR"])] !! 0 = Some (self, args) ∧
     Singleton.type_call self args = inl TypeError) ∧
  outcome 1 (run Singleton.type_call Singleton.one_then_other
               Singleton.faulty_clients) = Some (Return 0).
Proof.
  split; [|reflexivity].
  apply (threads_raise_only_from_construction Singleton.type_call
           Singleton.one_then_other
           [("Singleton", []); ("Singleton", ["BAR"])] Singleton.fresh
           0 TypeError).
  reflexivity.
Defined.

Lemma initialised_class_is_never_constructed_witness :
  constructions "Singleton"
    (run Singleton.type_call Singleton.bar_first Singleton.late_clients) = 0 ∧
  _instances
    (store (run Singleton.type_call Singleton.bar_first
              Singleton.late_clients)) !! "Singleton" = Some 0 ∧
  ∀ t args r,
    map (pair "Singleton") [["BAR"]; ["BAZ"]] !! t
      = Some ("Singleton", args) →
    outcome t (run Singleton.type_call Singleton.bar_first
                 Singleton.late_clients) = Some r →
    r = Return 0.
Proof.
  apply (initialised_class_is_never_constructed Singleton.type_call
           "Singleton" 0 Singleton.bar_first
           (map (pair "Singleton") [["BAR"]; ["BAZ"]]) Singleton.after_foo).
  reflexivity.
Defined.

Lemma returned_instance_was_built_by_a_caller_witness :
  ∃ args o,
    args ∈ [["FOO"]; ["BAR"]] ∧
    Singleton.type_call "Singleton" args = inr o ∧
    heap (store Singleton.race) !! 0 = Some o.
Proof.
  apply (returned_instance_was_built_by_a_caller Singleton.type_call
           "Singleton" [["FOO"]; ["BAR"]] Singleton.fresh
           Singleton.bar_first 0 0); reflexivity.
Defined.

End Client.
